(** * The line-continuation external scanner of the Morpheus grammar

    A shallow embedding of [grammar/src/scanner.c]: the five entry points
    the tree-sitter runtime calls ([create], [destroy], [serialize],
    [deserialize], [scan]) and the part of the runtime's lexer the scanner
    touches ([lookahead], [advance], [result_symbol]).

    Code points are integers ([Z]); the scanner compares them with the
    character constants of the C source and hands them to [iswspace]. *)

From Stdlib Require Import ZArith List Bool Lia.
Import ListNotations.
Local Open Scope Z_scope.

(** ** Character constants of the source *)

Module Chr.
Definition NUL : Z := 0.          (* lookahead at end of input *)
Definition TAB : Z := 9.          (* '\t' *)
Definition LF : Z := 10.          (* '\n' *)
Definition VT : Z := 11.          (* '\v' *)
Definition FF : Z := 12.          (* '\f' *)
Definition CR : Z := 13.          (* '\r' *)
Definition SPACE : Z := 32.       (* ' ' *)
Definition BACKSLASH : Z := 92.   (* '\\' *)
Definition LOWER_X : Z := 120.    (* 'x' *)
End Chr.

(** ** Token types

    [enum TokenType { LINE_CONTINUATION, }]: one enumerator, of value 0. *)

Inductive TokenType : Type :=
| LINE_CONTINUATION.

Definition TokenType_value (t : TokenType) : Z :=
  match t with
  | LINE_CONTINUATION => 0
  end.

(** ** The lexer handed to the scanner *)

(** Modelled from the spec: the [TSLexer] cursor, declared in
    [tree_sitter/parser.h], a header of the tree-sitter runtime that
    [scanner.c] includes.  The spec (section 3) gives its capabilities: peek the current code point,
    advance by one code point while optionally marking it as skippable, and
    report the category of a recognised token.

    - [advanced] logs every code point the cursor has been advanced past,
      oldest first, with the [skip] flag of the call that consumed it;
    - [rest] holds the code points from the cursor on;
    - [token_start] is the position at which the significant span starts:
      a skipping advance moves it to the position reached;
    - [result_symbol] is the field the scanner writes on success;
    - [peeks] counts the reads of the [lookahead] field (bookkeeping only,
      so that "does not inspect the input" can be stated). *)
Record TSLexer : Type := mkLexer {
  advanced : list (Z * bool);
  rest : list Z;
  token_start : nat;
  result_symbol : Z;
  peeks : nat
}.

(** The cursor position, in code points. *)
Definition position (lx : TSLexer) : nat := length (advanced lx).

(** The code point under the cursor; [0] at end of input. *)
Definition current (lx : TSLexer) : Z := hd Chr.NUL (rest lx).

(** The significant span: what lies between [token_start] and the cursor. *)
Definition token_text (lx : TSLexer) : list Z :=
  map fst (skipn (token_start lx) (advanced lx)).

(** The code points consumed as skippable trivia, in order. *)
Definition trivia (lx : TSLexer) : list Z :=
  map fst (filter snd (advanced lx)).

(** ** A small monad: lexer state, and [None] when the loop budget runs out *)

Definition Lex (A : Type) : Type := TSLexer -> option (A * TSLexer).

Definition ret {A : Type} (a : A) : Lex A := fun lx => Some (a, lx).

Definition bind {A B : Type} (m : Lex A) (k : A -> Lex B) : Lex B :=
  fun lx =>
    match m lx with
    | Some (a, lx') => k a lx'
    | None => None
    end.

Declare Scope lex_scope.
Delimit Scope lex_scope with lex.
Notation "x <- m ;; k" := (bind m (fun x => k))
  (at level 61, m at next level, right associativity) : lex_scope.
Notation "m ;; k" := (bind m (fun _ => k))
  (at level 61, right associativity) : lex_scope.

(** [lexer->lookahead] *)
Definition lookahead : Lex Z :=
  fun lx =>
    Some (current lx,
          mkLexer (advanced lx) (rest lx) (token_start lx) (result_symbol lx)
                  (S (peeks lx))).

(** [lexer->advance(lexer, skip)]: one code point forward; nothing happens
    at end of input. *)
Definition advance (skip : bool) : Lex unit :=
  fun lx =>
    match rest lx with
    | [] => Some (tt, lx)
    | c :: cs =>
        let adv := advanced lx ++ [(c, skip)] in
        Some (tt,
              mkLexer adv cs
                      (if skip then length adv else token_start lx)
                      (result_symbol lx) (peeks lx))
    end.

(** [lexer->result_symbol = sym] *)
Definition set_result_symbol (sym : TokenType) : Lex unit :=
  fun lx =>
    Some (tt,
          mkLexer (advanced lx) (rest lx) (token_start lx)
                  (TokenType_value sym) (peeks lx)).

(** ** Scanner state and the memory the entry points could write to *)

(** [void *] values: the null pointer is address 0. *)
Definition ptr : Type := Z.
Definition NULL : ptr := 0.

(** The bytes of memory reachable from the arguments of an entry point
    (the scanner's own state behind [payload], the runtime's [buffer]),
    as address/byte pairs. *)
Definition Memory : Type := list (Z * Z).

Definition Mem (A : Type) : Type := Memory -> A * Memory.

(** [void *tree_sitter_morpheus_external_scanner_create()] *)
Definition tree_sitter_morpheus_external_scanner_create : Mem ptr :=
  fun m => (NULL, m).

(** [void tree_sitter_morpheus_external_scanner_destroy(void *payload)] *)
Definition tree_sitter_morpheus_external_scanner_destroy
    (payload : ptr) : Mem unit :=
  fun m => (tt, m).

(** [unsigned tree_sitter_morpheus_external_scanner_serialize(void *payload,
    char *buffer)] *)
Definition tree_sitter_morpheus_external_scanner_serialize
    (payload : ptr) (buffer : ptr) : Mem Z :=
  fun m => (0, m).

(** [void tree_sitter_morpheus_external_scanner_deserialize(void *payload,
    const char *buffer, unsigned length)] *)
Definition tree_sitter_morpheus_external_scanner_deserialize
    (payload : ptr) (buffer : ptr) (length : Z) : Mem unit :=
  fun m => (tt, m).

(** ** The scan entry point *)

Section Scan.

(** [iswspace] of [<wctype.h>], together with the conversion of the
    [int32_t] lookahead to [wint_t] at the call: which code points count
    as white space depends on the C locale, so it is a parameter. *)
Variable iswspace : Z -> bool.

Local Open Scope lex_scope.

(** The loop of lines 24-27:
<<
  while (iswspace(lexer->lookahead)) {
    if (lexer->lookahead == '\n') break;
    lexer->advance(lexer, true);
  }
>>
    [fuel] bounds the number of times the loop condition is evaluated. *)
Fixpoint skip_whitespace (fuel : nat) : Lex unit :=
  match fuel with
  | O => fun _ => None
  | S fuel' =>
      c <- lookahead ;;
      if iswspace c then
        c' <- lookahead ;;
        if c' =? Chr.LF then ret tt
        else advance true ;; skip_whitespace fuel'
      else ret tt
  end.

(** [bool tree_sitter_morpheus_external_scanner_scan(void *payload,
    TSLexer *lexer, const bool *valid_symbols)] *)
Definition tree_sitter_morpheus_external_scanner_scan
    (fuel : nat) (payload : ptr) (valid_symbols : TokenType -> bool)
    : Lex bool :=
  if valid_symbols LINE_CONTINUATION then
    skip_whitespace fuel ;;
    c <- lookahead ;;
    if c =? Chr.BACKSLASH then
      advance false ;;
      c1 <- lookahead ;;
      (if c1 =? Chr.CR then advance false else ret tt) ;;
      c2 <- lookahead ;;
      if c2 =? Chr.LF then
        advance false ;;
        set_result_symbol LINE_CONTINUATION ;;
        ret true
      else ret false
    else ret false
  else ret false.

(** Lines 29-41 on their own, as they stand in the scan above: the part
    that runs once the loop is left.  It serves to reason about the two
    halves of the function one after the other. *)
Definition expect_backslash : Lex bool :=
  c <- lookahead ;;
  if c =? Chr.BACKSLASH then
    advance false ;;
    c1 <- lookahead ;;
    (if c1 =? Chr.CR then advance false else ret tt) ;;
    c2 <- lookahead ;;
    if c2 =? Chr.LF then
      advance false ;;
      set_result_symbol LINE_CONTINUATION ;;
      ret true
    else ret false
  else ret false.

(** The test under which the loop body reaches its [advance]: the code
    point is white space and is not the newline. *)
Definition skippable (c : Z) : bool :=
  iswspace c && negb (c =? Chr.LF).

(** The leading run of skippable code points of an input. *)
Fixpoint whitespace_run (cs : list Z) : list Z :=
  match cs with
  | [] => []
  | c :: cs' => if skippable c then c :: whitespace_run cs' else []
  end.

End Scan.

(** The log entries of code points advanced past with [skip] set, and of
    code points advanced past as part of the token. *)
Definition skipped (ws : list Z) : list (Z * bool) :=
  map (fun c => (c, true)) ws.

Definition significant (cs : list Z) : list (Z * bool) :=
  map (fun c => (c, false)) cs.

(** Where the token starts once the run [ws] has been skipped from
    position [pos]: behind the run, or where it was when nothing was
    skipped. *)
Definition start_behind (ws : list Z) (pos start : nat) : nat :=
  match ws with
  | [] => start
  | _ :: _ => (pos + length ws)%nat
  end.

(** The lexer once the loop has skipped the run [ws] and stopped in front
    of [tl], having found white space there ([ws_at_stop]: then it was a
    newline, and the loop read the lookahead twice) or not (once). *)
Definition after_skip (ws tl : list Z) (ws_at_stop : bool) (lx : TSLexer)
    : TSLexer :=
  mkLexer (advanced lx ++ skipped ws) tl
          (start_behind ws (position lx) (token_start lx))
          (result_symbol lx)
          (peeks lx + 2 * length ws + (if ws_at_stop then 2 else 1))%nat.

(** [iswspace] in the "C" locale: the six standard white-space characters. *)
Definition iswspace_C (c : Z) : bool :=
  (c =? Chr.SPACE) || ((Chr.TAB <=? c) && (c <=? Chr.CR)).

(** The code points that are white space in every locale. *)
Definition standard_whitespace : list Z :=
  [Chr.SPACE; Chr.TAB; Chr.LF; Chr.VT; Chr.FF; Chr.CR].

(** A lexer at the start of a token: [before] was consumed by earlier
    tokens, [input] is still to come, [sym] is what [result_symbol] holds. *)
Definition lexer_at (before : list (Z * bool)) (input : list Z) (sym : Z)
    : TSLexer :=
  mkLexer before input (length before) sym 0.

(** Valid-symbol tables: the one category is admissible, or it is not. *)
Definition admissible : TokenType -> bool := fun _ => true.
Definition inadmissible : TokenType -> bool := fun _ => false.

(** The code points a leading carriage return, tab, vertical tab or form
    feed run is made of. *)
Definition cr_or_tab (c : Z) : bool :=
  existsb (Z.eqb c) [Chr.CR; Chr.TAB; Chr.VT; Chr.FF].

(** ** A scanner over its life time

    What the runtime keeps for a scanner between calls: the handle that
    [create] returned and the memory the entry points may write to. *)
Record Session : Type := mkSession {
  handle : ptr;
  memory : Memory
}.

(** One call of [scan] as the runtime issues it: its own budget, valid-symbol
    table and lexer. *)
Record ScanCall : Type := mkScanCall {
  call_fuel : nat;
  call_valid_symbols : TokenType -> bool;
  call_lexer : TSLexer
}.

Section Sessions.

Variable iswspace : Z -> bool.

Definition session_create (m : Memory) : Session :=
  let (p, m') := tree_sitter_morpheus_external_scanner_create m in
  mkSession p m'.

(** [scan] works on the lexer it is given and on nothing else: the
    session is as it was. *)
Definition session_scan (c : ScanCall) (s : Session)
    : option (bool * TSLexer) * Session :=
  (tree_sitter_morpheus_external_scanner_scan iswspace
     (call_fuel c) (handle s) (call_valid_symbols c) (call_lexer c),
   s).

Definition session_serialize (buffer : ptr) (s : Session) : Z * Session :=
  let (n, m') :=
    tree_sitter_morpheus_external_scanner_serialize
      (handle s) buffer (memory s) in
  (n, mkSession (handle s) m').

Definition session_deserialize (buffer : ptr) (length : Z) (s : Session)
    : Session :=
  let (_, m') :=
    tree_sitter_morpheus_external_scanner_deserialize
      (handle s) buffer length (memory s) in
  mkSession (handle s) m'.

(** The session after a history of scan calls, successful or not. *)
Fixpoint session_after (history : list ScanCall) (s : Session) : Session :=
  match history with
  | [] => s
  | c :: history' => session_after history' (snd (session_scan c s))
  end.

(** Save, then restore at once from what was saved. *)
Definition round_trip (buffer : ptr) (s : Session) : Session :=
  let (n, s') := session_serialize buffer s in
  session_deserialize buffer n s'.

End Sessions.

(** ** Any call on a live scanner

    The runtime may interleave the three calls in any order, and hand
    [deserialize] any buffer and length. *)
Inductive Call : Type :=
| CallScan (c : ScanCall)
| CallSerialize (buffer : ptr)
| CallDeserialize (buffer : ptr) (length : Z).

Section Lifecycle.

Variable iswspace : Z -> bool.

Definition session_call (c : Call) (s : Session) : Session :=
  match c with
  | CallScan sc => snd (session_scan iswspace sc s)
  | CallSerialize buffer => snd (session_serialize buffer s)
  | CallDeserialize buffer length => session_deserialize buffer length s
  end.

Fixpoint session_run (calls : list Call) (s : Session) : Session :=
  match calls with
  | [] => s
  | c :: calls' => session_run calls' (session_call c s)
  end.

(** The memory left once the scanner is destroyed. *)
Definition session_destroy (s : Session) : Memory :=
  snd (tree_sitter_morpheus_external_scanner_destroy (handle s) (memory s)).

End Lifecycle.

(** The code points the second half of [scan] may advance past. *)
Definition continuation_char (c : Z) : bool :=
  existsb (Z.eqb c) [Chr.BACKSLASH; Chr.CR; Chr.LF].

(** Two calls of [scan] in a row on the same lexer, as the runtime makes
    them when it retries at the position a failed call left. *)
Definition scan_twice (iswspace : Z -> bool)
    (fuel1 fuel2 : nat) (payload : ptr)
    (valid1 valid2 : TokenType -> bool) : Lex bool :=
  bind (tree_sitter_morpheus_external_scanner_scan
          iswspace fuel1 payload valid1)
       (fun _ =>
          tree_sitter_morpheus_external_scanner_scan
            iswspace fuel2 payload valid2).

(** ** Runs on concrete inputs *)

Example scan_backslash_newline :
  tree_sitter_morpheus_external_scanner_scan iswspace_C 1 NULL admissible
    (lexer_at [] [92; 10; 97] 7)
  = Some (true, mkLexer [(92, false); (10, false)] [97] 0 0 4).
Proof. reflexivity. Qed.

Example scan_spaces_backslash_newline :
  tree_sitter_morpheus_external_scanner_scan iswspace_C 4 NULL admissible
    (lexer_at [] [32; 32; 32; 92; 10] 7)
  = Some (true, mkLexer [(32, true); (32, true); (32, true);
                         (92, false); (10, false)] [] 3 0 10).
Proof. reflexivity. Qed.

Example scan_backslash_x :
  tree_sitter_morpheus_external_scanner_scan iswspace_C 1 NULL admissible
    (lexer_at [] [92; 120] 7)
  = Some (false, mkLexer [(92, false)] [120] 0 7 4).
Proof. reflexivity. Qed.

Example scan_out_of_fuel :
  tree_sitter_morpheus_external_scanner_scan iswspace_C 3 NULL admissible
    (lexer_at [] [32; 32; 32; 92; 10] 7) = None.
Proof. reflexivity. Qed.

(** ** The lexer operations, step by step *)

Section LexerFacts.

Lemma bind_Some {A B : Type} (m : Lex A) (k : A -> Lex B) lx a lx' :
  m lx = Some (a, lx') -> bind m k lx = k a lx'.
Proof. unfold bind; intros ->; reflexivity. Qed.

Lemma advance_result_symbol skip lx u lx' :
  advance skip lx = Some (u, lx') -> result_symbol lx' = result_symbol lx.
Proof.
  unfold advance; destruct (rest lx); intros [= _ <-]; reflexivity.
Qed.

End LexerFacts.

(** ** Lists of log entries *)

Section LogFacts.

Lemma map_fst_skipped ws : map fst (skipped ws) = ws.
Proof.
  unfold skipped; rewrite map_map; cbn [fst]; apply map_id.
Qed.

Lemma map_fst_significant cs : map fst (significant cs) = cs.
Proof.
  unfold significant; rewrite map_map; cbn [fst]; apply map_id.
Qed.

Lemma filter_snd_skipped ws : filter snd (skipped ws) = skipped ws.
Proof.
  induction ws as [|c ws IH]; cbn; [reflexivity | f_equal; exact IH].
Qed.

Lemma filter_snd_significant cs : filter snd (significant cs) = [].
Proof. induction cs as [|c cs IH]; cbn; [reflexivity | exact IH]. Qed.

Lemma length_skipped ws : length (skipped ws) = length ws.
Proof. apply length_map. Qed.

Lemma length_significant cs : length (significant cs) = length cs.
Proof. apply length_map. Qed.

(** The text after a token start placed behind the skipped run. *)
Lemma token_text_behind_run adv ws cs tl sym n :
  token_text (mkLexer (adv ++ skipped ws ++ significant cs) tl
                      (length adv + length ws) sym n)
  = cs.
Proof.
  unfold token_text; cbn [token_start advanced].
  rewrite app_assoc, skipn_app.
  rewrite length_app, length_skipped, Nat.sub_diag; cbn [skipn].
  rewrite skipn_all2 by (rewrite length_app, length_skipped; lia).
  cbn [app]; apply map_fst_significant.
Qed.

Lemma trivia_behind_run adv ws cs tl k sym n :
  trivia (mkLexer (adv ++ skipped ws ++ significant cs) tl k sym n)
  = map fst (filter snd adv) ++ ws.
Proof.
  unfold trivia; cbn [advanced].
  rewrite !filter_app, filter_snd_skipped, filter_snd_significant.
  rewrite app_nil_r, map_app, map_fst_skipped; reflexivity.
Qed.

End LogFacts.

(** ** The whitespace loop *)

Section LoopFacts.

Variable iswspace : Z -> bool.

Lemma skippable_true c :
  skippable iswspace c = true -> iswspace c = true /\ (c =? Chr.LF) = false.
Proof.
  unfold skippable; intros H; apply andb_prop in H as [Hw Hn].
  split; [assumption | now apply negb_true_iff].
Qed.

Lemma skippable_false c :
  skippable iswspace c = false ->
  iswspace c = false \/ (iswspace c = true /\ (c =? Chr.LF) = true).
Proof.
  unfold skippable; destruct (iswspace c); simpl; [right | now left].
  split; [reflexivity | now apply negb_false_iff].
Qed.

(** One iteration that reaches [advance]. *)
Lemma skip_whitespace_step fuel lx c cs :
  skippable iswspace c = true ->
  rest lx = c :: cs ->
  skip_whitespace iswspace (S fuel) lx
  = skip_whitespace iswspace fuel
      (mkLexer (advanced lx ++ [(c, true)]) cs (S (position lx))
               (result_symbol lx) (S (S (peeks lx)))).
Proof.
  intros Hc Hrest; apply skippable_true in Hc as [Hw Hn].
  cbn [skip_whitespace]; unfold bind at 1, lookahead at 1, current.
  rewrite Hrest; cbn [hd rest]; rewrite Hw.
  unfold bind at 1, lookahead at 1, current; cbn [hd rest]; rewrite Hn.
  unfold bind, advance, position.
  cbn [rest advanced token_start result_symbol peeks].
  rewrite length_app, Nat.add_1_r; reflexivity.
Qed.

(** The iteration that leaves the loop: the condition fails, or the
    [break] is taken. *)
Lemma skip_whitespace_stop fuel lx :
  skippable iswspace (current lx) = false ->
  skip_whitespace iswspace (S fuel) lx
  = Some (tt, after_skip [] (rest lx) (iswspace (current lx)) lx).
Proof.
  intros Hc; cbn [skip_whitespace]; unfold bind at 1, lookahead at 1.
  unfold after_skip, skipped; cbn [map length]; rewrite app_nil_r.
  apply skippable_false in Hc as [Hw | [Hw Hn]]; rewrite Hw.
  - unfold ret; do 3 f_equal; lia.
  - unfold bind, lookahead, current in *.
    cbn [advanced rest token_start result_symbol peeks].
    rewrite Hn; unfold ret; do 3 f_equal; lia.
Qed.

(** The loop skips a whole run and stops in front of what follows. *)
Lemma skip_whitespace_run ws :
  forall fuel lx tl,
    forallb (skippable iswspace) ws = true ->
    skippable iswspace (hd Chr.NUL tl) = false ->
    rest lx = ws ++ tl ->
    (length ws < fuel)%nat ->
    skip_whitespace iswspace fuel lx
    = Some (tt, after_skip ws tl (iswspace (hd Chr.NUL tl)) lx).
Proof.
  induction ws as [|c ws IH]; intros fuel lx tl Hws Htl Hrest Hfuel;
    (destruct fuel as [|fuel]; [cbn in Hfuel; lia|]).
  - cbn [app] in Hrest.
    rewrite skip_whitespace_stop by (unfold current; now rewrite Hrest).
    unfold current; now rewrite Hrest.
  - cbn [forallb] in Hws; apply andb_prop in Hws as [Hc Hws].
    cbn [app] in Hrest.
    rewrite (skip_whitespace_step fuel lx c (ws ++ tl) Hc Hrest).
    rewrite (IH fuel _ tl Hws Htl)
      by (cbn in Hfuel |- *; first [reflexivity | lia]).
    unfold after_skip, skipped, position.
    cbn [advanced rest token_start result_symbol peeks map length].
    rewrite <- app_assoc; cbn [app].
    do 3 f_equal; [|lia].
    unfold start_behind.
    destruct ws; rewrite ?length_app; cbn [length]; lia.
Qed.

(** The loop never writes [result_symbol]. *)
Lemma skip_whitespace_result_symbol fuel :
  forall lx u lx',
    skip_whitespace iswspace fuel lx = Some (u, lx') ->
    result_symbol lx' = result_symbol lx.
Proof.
  induction fuel as [|fuel IH]; intros lx u lx'; [discriminate|].
  cbn [skip_whitespace]; unfold bind at 1, lookahead at 1.
  destruct (iswspace _); [|intros [= _ <-]; reflexivity].
  unfold bind at 1, lookahead at 1; cbn [current rest].
  destruct (_ =? Chr.LF); [intros [= _ <-]; reflexivity|].
  unfold bind; destruct (advance true _) as [[u1 lx1]|] eqn:Hadv;
    [|discriminate].
  intros H; apply IH in H; rewrite H.
  apply advance_result_symbol in Hadv; exact Hadv.
Qed.

(** An input splits into its leading run and a remainder at which the
    loop stops, provided the end-of-input sentinel is not white space. *)
Lemma whitespace_run_split cs :
  iswspace Chr.NUL = false ->
  exists tl,
    cs = whitespace_run iswspace cs ++ tl
    /\ forallb (skippable iswspace) (whitespace_run iswspace cs) = true
    /\ skippable iswspace (hd Chr.NUL tl) = false.
Proof.
  intros Hnul; induction cs as [|c cs (tl & Heq & Hall & Hstop)].
  - exists []; cbn; unfold skippable; rewrite Hnul; auto.
  - cbn [whitespace_run]; destruct (skippable iswspace c) eqn:Hc.
    + exists tl; cbn [app forallb]; rewrite Hc, <- Heq, Hall; auto.
    + exists (c :: cs); cbn; auto.
Qed.

Lemma whitespace_run_length cs :
  (length (whitespace_run iswspace cs) <= length cs)%nat.
Proof.
  induction cs as [|c cs IH]; cbn; [lia|].
  destruct (skippable iswspace c); cbn; lia.
Qed.

End LoopFacts.

(** ** The scan entry point, in two halves *)

(** Closes an equation between two results whose lexers differ in how
    their counters are written. *)
Ltac lexer_eq :=
  unfold ret; rewrite <- ?app_assoc; cbn [app];
  f_equal; f_equal; f_equal; lia.

(** Runs the straight-line half on a lexer given by its fields, up to the
    first comparison that does not compute. *)
Ltac lex_run :=
  unfold expect_backslash, bind, lookahead, advance, set_result_symbol,
    current, ret;
  cbn -[Z.eqb].

Section ScanFacts.

Variable iswspace : Z -> bool.

Lemma scan_unfold fuel payload valid_symbols :
  tree_sitter_morpheus_external_scanner_scan
    iswspace fuel payload valid_symbols
  = if valid_symbols LINE_CONTINUATION
    then bind (skip_whitespace iswspace fuel) (fun _ => expect_backslash)
    else ret false.
Proof. reflexivity. Qed.

(** With the category admissible, [scan] on a run [ws] followed by [tl]
    is the second half started behind the run. *)
Lemma scan_behind_run fuel payload valid_symbols lx ws tl :
  valid_symbols LINE_CONTINUATION = true ->
  forallb (skippable iswspace) ws = true ->
  skippable iswspace (hd Chr.NUL tl) = false ->
  rest lx = ws ++ tl ->
  (length ws < fuel)%nat ->
  tree_sitter_morpheus_external_scanner_scan
    iswspace fuel payload valid_symbols lx
  = expect_backslash (after_skip ws tl (iswspace (hd Chr.NUL tl)) lx).
Proof.
  intros Hvalid Hws Htl Hrest Hfuel.
  rewrite scan_unfold, Hvalid.
  exact (bind_Some (skip_whitespace iswspace fuel)
           (fun _ => expect_backslash) lx tt _
           (skip_whitespace_run iswspace ws fuel lx tl Hws Htl Hrest Hfuel)).
Qed.

(** The second half, case by case on what is under the cursor. *)
Lemma expect_backslash_other lx :
  (current lx =? Chr.BACKSLASH) = false ->
  expect_backslash lx
  = Some (false, mkLexer (advanced lx) (rest lx) (token_start lx)
                         (result_symbol lx) (S (peeks lx))).
Proof.
  intros H; unfold expect_backslash, bind, lookahead; rewrite H.
  reflexivity.
Qed.

Lemma expect_backslash_lf lx tl :
  rest lx = Chr.BACKSLASH :: Chr.LF :: tl ->
  expect_backslash lx
  = Some (true,
          mkLexer (advanced lx ++ significant [Chr.BACKSLASH; Chr.LF]) tl
                  (token_start lx) (TokenType_value LINE_CONTINUATION)
                  (peeks lx + 3)).
Proof.
  intros H; unfold expect_backslash, bind, lookahead, advance, current.
  rewrite H; cbn; lexer_eq.
Qed.

Lemma expect_backslash_cr_lf lx tl :
  rest lx = Chr.BACKSLASH :: Chr.CR :: Chr.LF :: tl ->
  expect_backslash lx
  = Some (true,
          mkLexer (advanced lx
                   ++ significant [Chr.BACKSLASH; Chr.CR; Chr.LF]) tl
                  (token_start lx) (TokenType_value LINE_CONTINUATION)
                  (peeks lx + 3)).
Proof.
  intros H; unfold expect_backslash, bind, lookahead, advance, current.
  rewrite H; cbn; lexer_eq.
Qed.

(** A backslash, then neither a carriage return nor a newline. *)
Lemma expect_backslash_alone lx tl :
  rest lx = Chr.BACKSLASH :: tl ->
  (hd Chr.NUL tl =? Chr.CR) = false ->
  (hd Chr.NUL tl =? Chr.LF) = false ->
  expect_backslash lx
  = Some (false,
          mkLexer (advanced lx ++ significant [Chr.BACKSLASH]) tl
                  (token_start lx) (result_symbol lx) (peeks lx + 3)).
Proof.
  intros H Hcr Hlf; destruct lx as [a r t s p]; cbn [rest] in H; subst r.
  lex_run; rewrite Z.eqb_refl; cbn -[Z.eqb].
  rewrite Hcr; cbn -[Z.eqb]; rewrite Hlf; lexer_eq.
Qed.

(** A backslash and a carriage return, then no newline. *)
Lemma expect_backslash_cr lx tl :
  rest lx = Chr.BACKSLASH :: Chr.CR :: tl ->
  (hd Chr.NUL tl =? Chr.LF) = false ->
  expect_backslash lx
  = Some (false,
          mkLexer (advanced lx ++ significant [Chr.BACKSLASH; Chr.CR]) tl
                  (token_start lx) (result_symbol lx) (peeks lx + 3)).
Proof.
  intros H Hlf; destruct lx as [a r t s p]; cbn [rest] in H; subst r.
  lex_run; rewrite Z.eqb_refl; cbn -[Z.eqb].
  rewrite Z.eqb_refl; cbn -[Z.eqb]; rewrite Hlf; lexer_eq.
Qed.

Lemma hd_eqb_cons (l : list Z) c :
  c <> Chr.NUL -> (hd Chr.NUL l =? c) = true -> exists l', l = c :: l'.
Proof.
  intros Hc H; apply Z.eqb_eq in H; destruct l as [|x l']; cbn in H.
  - congruence.
  - exists l'; now subst.
Qed.

(** The second half always returns; it advances past at most three code
    points, all of them significant, reads the lookahead at most three
    times, and writes [result_symbol] exactly when it succeeds. *)
Lemma expect_backslash_total lx :
  exists ok lx' more,
    expect_backslash lx = Some (ok, lx')
    /\ advanced lx' = advanced lx ++ significant more
    /\ rest lx = more ++ rest lx'
    /\ token_start lx' = token_start lx
    /\ (length more <= 3)%nat
    /\ (peeks lx' <= peeks lx + 3)%nat
    /\ (ok = false -> result_symbol lx' = result_symbol lx)
    /\ (ok = true ->
        result_symbol lx' = TokenType_value LINE_CONTINUATION).
Proof.
  destruct (current lx =? Chr.BACKSLASH) eqn:Hb.
  2:{ exists false, (mkLexer (advanced lx) (rest lx) (token_start lx)
                       (result_symbol lx) (S (peeks lx))), [].
      rewrite (expect_backslash_other lx Hb); cbn.
      rewrite app_nil_r; repeat split; try lia; discriminate. }
  apply hd_eqb_cons in Hb as [tl Hrest]; [|discriminate].
  destruct (hd Chr.NUL tl =? Chr.CR) eqn:Hcr.
  - apply hd_eqb_cons in Hcr as [tl' ->]; [|discriminate].
    destruct (hd Chr.NUL tl' =? Chr.LF) eqn:Hlf.
    + apply hd_eqb_cons in Hlf as [tl'' ->]; [|discriminate].
      eexists true, _, [Chr.BACKSLASH; Chr.CR; Chr.LF].
      rewrite (expect_backslash_cr_lf lx tl'' Hrest).
      split; [reflexivity|]; cbn.
      repeat split; try lia; try discriminate; assumption.
    + eexists false, _, [Chr.BACKSLASH; Chr.CR].
      rewrite (expect_backslash_cr lx tl' Hrest Hlf).
      split; [reflexivity|]; cbn.
      repeat split; try lia; try discriminate; assumption.
  - destruct (hd Chr.NUL tl =? Chr.LF) eqn:Hlf.
    + apply hd_eqb_cons in Hlf as [tl' ->]; [|discriminate].
      eexists true, _, [Chr.BACKSLASH; Chr.LF].
      rewrite (expect_backslash_lf lx tl' Hrest).
      split; [reflexivity|]; cbn.
      repeat split; try lia; try discriminate; assumption.
    + eexists false, _, [Chr.BACKSLASH].
      rewrite (expect_backslash_alone lx tl Hrest Hcr Hlf).
      split; [reflexivity|]; cbn.
      repeat split; try lia; try discriminate; assumption.
Qed.

End ScanFacts.

(** Rewrites a call of [scan] on a run [ws] followed by [tl] into the
    second half started behind the run; the side conditions come next. *)
Ltac scan_behind ws tl :=
  match goal with
  | |- context [tree_sitter_morpheus_external_scanner_scan ?w ?f ?p ?v ?lx] =>
      rewrite (scan_behind_run w f p v lx ws tl)
  end.

(** ** What [iswspace] is taken to satisfy

    The C library answers true on the standard white-space characters in
    every locale; the end-of-input sentinel and the backslash are white
    space in none. *)

Section Whitespace.

Variable iswspace : Z -> bool.

Lemma standard_whitespace_In c :
  forallb iswspace standard_whitespace = true ->
  In c standard_whitespace -> iswspace c = true.
Proof. intros H; now apply forallb_forall. Qed.

Lemma cr_or_tab_skippable c :
  forallb iswspace standard_whitespace = true ->
  cr_or_tab c = true -> skippable iswspace c = true.
Proof.
  intros Hstd Hc; unfold cr_or_tab in Hc.
  apply existsb_exists in Hc as (x & Hin & Hx); apply Z.eqb_eq in Hx; subst x.
  unfold skippable; apply andb_true_intro; split.
  - apply (standard_whitespace_In c Hstd); cbn in Hin |- *; intuition.
  - cbn in Hin; now destruct Hin as [<-|[<-|[<-|[<-|[]]]]].
Qed.

Lemma backslash_stops :
  iswspace Chr.BACKSLASH = false ->
  forall tl, skippable iswspace (hd Chr.NUL (Chr.BACKSLASH :: tl)) = false.
Proof. intros H tl; unfold skippable; cbn [hd]; now rewrite H. Qed.

End Whitespace.

Lemma iswspace_C_standard : forallb iswspace_C standard_whitespace = true.
Proof. reflexivity. Qed.

(** ** The claims *)

Section Claims.

Variable iswspace : Z -> bool.

Hypothesis iswspace_standard :
  forallb iswspace standard_whitespace = true.
Hypothesis iswspace_NUL : iswspace Chr.NUL = false.
Hypothesis iswspace_BACKSLASH : iswspace Chr.BACKSLASH = false.

(** C1: with the line-continuation category admissible, an input that
    begins with backslash, newline makes [scan] succeed, set
    [result_symbol] to the category and advance past those two code
    points and no other; with backslash, carriage return, newline it
    advances past those three. *)
Theorem scan_accepts_line_continuation
    fuel payload valid_symbols adv start sym pk tl :
  valid_symbols LINE_CONTINUATION = true ->
  (0 < fuel)%nat ->
  let lf := mkLexer (adv ++ significant [Chr.BACKSLASH; Chr.LF]) tl start
              (TokenType_value LINE_CONTINUATION) (pk + 4) in
  let crlf := mkLexer (adv ++ significant [Chr.BACKSLASH; Chr.CR; Chr.LF])
                tl start (TokenType_value LINE_CONTINUATION) (pk + 4) in
  tree_sitter_morpheus_external_scanner_scan iswspace fuel payload
    valid_symbols
    (mkLexer adv (Chr.BACKSLASH :: Chr.LF :: tl) start sym pk)
  = Some (true, lf)
  /\ position lf = (length adv + 2)%nat
  /\ tree_sitter_morpheus_external_scanner_scan iswspace fuel payload
       valid_symbols
       (mkLexer adv (Chr.BACKSLASH :: Chr.CR :: Chr.LF :: tl) start sym pk)
     = Some (true, crlf)
  /\ position crlf = (length adv + 3)%nat.
Proof.
  intros Hvalid Hfuel lf crlf.
    repeat split.
  - scan_behind (@nil Z) (Chr.BACKSLASH :: Chr.LF :: tl);
    [| exact Hvalid | reflexivity | now apply backslash_stops
     | reflexivity | exact Hfuel].
    cbn [hd]; rewrite iswspace_BACKSLASH.
    rewrite expect_backslash_lf with (tl := tl) by reflexivity.
    unfold after_skip, lf; cbn; rewrite app_nil_r; lexer_eq.
  - unfold position, lf; cbn [advanced].
    now rewrite length_app, length_significant.
  - scan_behind (@nil Z) (Chr.BACKSLASH :: Chr.CR :: Chr.LF :: tl);
    [| exact Hvalid | reflexivity | now apply backslash_stops
     | reflexivity | exact Hfuel].
    cbn [hd]; rewrite iswspace_BACKSLASH.
    rewrite expect_backslash_cr_lf with (tl := tl) by reflexivity.
    unfold after_skip, crlf; cbn; rewrite app_nil_r; lexer_eq.
  - unfold position, crlf; cbn [advanced].
    now rewrite length_app, length_significant.
Qed.

(** C2: when the category is not admissible, [scan] fails and leaves the
    lexer exactly as it was: no advance, skipping or not, and no read of
    the lookahead. *)
Theorem scan_inadmissible_untouched fuel payload valid_symbols lx :
  valid_symbols LINE_CONTINUATION = false ->
  tree_sitter_morpheus_external_scanner_scan iswspace fuel payload
    valid_symbols lx = Some (false, lx).
Proof. intros H; rewrite scan_unfold, H; reflexivity. Qed.

(** C5: on a newline with no backslash before it, [scan] fails and
    advances past nothing: the loop stops at the newline. *)
Theorem scan_stops_at_newline
    fuel payload valid_symbols adv start sym pk tl :
  valid_symbols LINE_CONTINUATION = true ->
  (0 < fuel)%nat ->
  tree_sitter_morpheus_external_scanner_scan iswspace fuel payload
    valid_symbols (mkLexer adv (Chr.LF :: tl) start sym pk)
  = Some (false,
          mkLexer adv (Chr.LF :: tl) start sym
                  (pk + if iswspace Chr.LF then 3 else 2)).
Proof.
  intros Hvalid Hfuel.
  assert (Hstop : skippable iswspace (hd Chr.NUL (Chr.LF :: tl)) = false).
  { unfold skippable; cbn [hd]; rewrite Z.eqb_refl; apply andb_false_r. }
  scan_behind (@nil Z) (Chr.LF :: tl);
  [| exact Hvalid | reflexivity | exact Hstop | reflexivity | exact Hfuel].
  rewrite expect_backslash_other by reflexivity.
  unfold after_skip; cbn; rewrite app_nil_r.
  destruct (iswspace Chr.LF); lexer_eq.
Qed.

(** C8: at end of input the lookahead is the sentinel, which is neither
    white space nor a backslash: [scan] fails and advances past
    nothing. *)
Theorem scan_fails_at_end_of_input
    fuel payload valid_symbols adv start sym pk :
  valid_symbols LINE_CONTINUATION = true ->
  (0 < fuel)%nat ->
  tree_sitter_morpheus_external_scanner_scan iswspace fuel payload
    valid_symbols (mkLexer adv [] start sym pk)
  = Some (false, mkLexer adv [] start sym (pk + 2)).
Proof.
  intros Hvalid Hfuel.
  assert (Hstop : skippable iswspace (hd Chr.NUL []) = false).
  { unfold skippable; cbn [hd]; now rewrite iswspace_NUL. }
  scan_behind (@nil Z) (@nil Z);
  [| exact Hvalid | reflexivity | exact Hstop | reflexivity | exact Hfuel].
  rewrite expect_backslash_other by reflexivity.
  unfold after_skip; cbn; rewrite app_nil_r, iswspace_NUL; lexer_eq.
Qed.

(** C3: with the category admissible, [scan] first advances past the whole
    leading run of white space other than the newline, every advance a
    skipping one, and the token starts behind the run: what it consumes
    after that is the token text, the run is trivia.  On three spaces,
    backslash, newline it succeeds, the spaces are trivia and the token
    text is backslash, newline. *)
Theorem scan_skips_leading_whitespace payload valid_symbols adv sym pk tl :
  valid_symbols LINE_CONTINUATION = true ->
  (forall fuel ws,
      forallb (skippable iswspace) ws = true ->
      skippable iswspace (hd Chr.NUL tl) = false ->
      (length ws < fuel)%nat ->
      exists ok lx' more,
        tree_sitter_morpheus_external_scanner_scan iswspace fuel payload
          valid_symbols
          (mkLexer adv (ws ++ tl) (length adv) sym pk)
        = Some (ok, lx')
        /\ advanced lx' = adv ++ skipped ws ++ significant more
        /\ tl = more ++ rest lx'
        /\ token_start lx' = (length adv + length ws)%nat
        /\ token_text lx' = more
        /\ trivia lx' = map fst (filter snd adv) ++ ws)
  /\ (forall fuel,
        (3 < fuel)%nat ->
        let spaces := [Chr.SPACE; Chr.SPACE; Chr.SPACE] in
        let lx' := mkLexer (adv ++ skipped spaces
                                ++ significant [Chr.BACKSLASH; Chr.LF])
                     tl (length adv + 3)
                     (TokenType_value LINE_CONTINUATION) (pk + 10) in
        tree_sitter_morpheus_external_scanner_scan iswspace fuel payload
          valid_symbols
          (mkLexer adv (spaces ++ Chr.BACKSLASH :: Chr.LF :: tl)
                   (length adv) sym pk)
        = Some (true, lx')
        /\ token_text lx' = [Chr.BACKSLASH; Chr.LF]
        /\ trivia lx' = map fst (filter snd adv) ++ spaces).
Proof.
  intros Hvalid; split.
  - intros fuel ws Hws Hstop Hfuel.
    scan_behind ws tl;
      [| exact Hvalid | exact Hws | exact Hstop | reflexivity | exact Hfuel].
    destruct (expect_backslash_total
                (after_skip ws tl (iswspace (hd Chr.NUL tl))
                   (mkLexer adv (ws ++ tl) (length adv) sym pk)))
      as (ok & lx' & more & Hrun & Hadv & Hrest & Hstart & _).
    exists ok, lx', more; split; [exact Hrun|].
    cbn [after_skip advanced rest token_start position] in Hadv, Hrest, Hstart.
    assert (Hst : token_start lx' = (length adv + length ws)%nat).
    { rewrite Hstart; unfold start_behind, position; cbn [advanced].
      destruct ws; cbn [length]; lia. }
    rewrite <- app_assoc in Hadv.
    repeat split; try assumption.
    + destruct lx' as [a r t s p]; cbn in Hadv, Hst; subst a t.
      apply token_text_behind_run.
    + destruct lx' as [a r t s p]; cbn in Hadv; subst a.
      apply trivia_behind_run.
  - intros fuel Hfuel spaces lx'.
    assert (Hsp : iswspace Chr.SPACE = true).
    { apply (standard_whitespace_In iswspace _ iswspace_standard); cbn; auto. }
    assert (Hws : forallb (skippable iswspace) spaces = true).
    { unfold spaces, skippable; cbn; now rewrite Hsp. }
    repeat split.
    + scan_behind spaces (Chr.BACKSLASH :: Chr.LF :: tl);
        [| exact Hvalid | exact Hws | now apply backslash_stops
         | reflexivity | exact Hfuel].
      cbn [hd]; rewrite iswspace_BACKSLASH.
      rewrite expect_backslash_lf with (tl := tl) by reflexivity.
      unfold after_skip, lx', position; cbn; lexer_eq.
    + apply (token_text_behind_run adv spaces).
    + apply trivia_behind_run.
Qed.

(** C4: with the category admissible, a backslash behind the skipped run
    that is followed neither by a newline nor by carriage return, newline
    makes [scan] fail with [result_symbol] untouched, and the cursor stays
    behind the backslash, or behind the carriage return when there was
    one. *)
Theorem scan_fails_behind_backslash
    fuel payload valid_symbols adv start sym pk ws tl :
  valid_symbols LINE_CONTINUATION = true ->
  forallb (skippable iswspace) ws = true ->
  (length ws < fuel)%nat ->
  ((hd Chr.NUL tl =? Chr.CR) = false ->
   (hd Chr.NUL tl =? Chr.LF) = false ->
   tree_sitter_morpheus_external_scanner_scan iswspace fuel payload
     valid_symbols
     (mkLexer adv (ws ++ Chr.BACKSLASH :: tl) start sym pk)
   = Some (false,
           mkLexer (adv ++ skipped ws ++ significant [Chr.BACKSLASH]) tl
                   (start_behind ws (length adv) start) sym
                   (pk + 2 * length ws + 4)))
  /\ ((hd Chr.NUL tl =? Chr.LF) = false ->
      tree_sitter_morpheus_external_scanner_scan iswspace fuel payload
        valid_symbols
        (mkLexer adv (ws ++ Chr.BACKSLASH :: Chr.CR :: tl) start sym pk)
      = Some (false,
              mkLexer (adv ++ skipped ws
                           ++ significant [Chr.BACKSLASH; Chr.CR]) tl
                      (start_behind ws (length adv) start) sym
                      (pk + 2 * length ws + 4))).
Proof.
  intros Hvalid Hws Hfuel; split.
  - intros Hcr Hlf.
    scan_behind ws (Chr.BACKSLASH :: tl);
      [| exact Hvalid | exact Hws | now apply backslash_stops
       | reflexivity | exact Hfuel].
    cbn [hd]; rewrite iswspace_BACKSLASH.
    rewrite expect_backslash_alone with (tl := tl)
      by first [reflexivity | assumption].
    unfold after_skip, position; cbn; lexer_eq.
  - intros Hlf.
    scan_behind ws (Chr.BACKSLASH :: Chr.CR :: tl);
      [| exact Hvalid | exact Hws | now apply backslash_stops
       | reflexivity | exact Hfuel].
    cbn [hd]; rewrite iswspace_BACKSLASH.
    rewrite expect_backslash_cr with (tl := tl)
      by first [reflexivity | assumption].
    unfold after_skip, position; cbn; lexer_eq.
Qed.

(** C10: a leading run of carriage returns, tabs, vertical tabs and form
    feeds in front of backslash, newline is skipped as trivia: [scan]
    succeeds and the token text is the backslash and the newline alone. *)
Theorem scan_skips_leading_carriage_return
    fuel payload valid_symbols adv sym pk ws tl :
  valid_symbols LINE_CONTINUATION = true ->
  forallb cr_or_tab ws = true ->
  (length ws < fuel)%nat ->
  let lx' := mkLexer (adv ++ skipped ws
                          ++ significant [Chr.BACKSLASH; Chr.LF])
               tl (length adv + length ws)
               (TokenType_value LINE_CONTINUATION)
               (pk + 2 * length ws + 4) in
  tree_sitter_morpheus_external_scanner_scan iswspace fuel payload
    valid_symbols
    (mkLexer adv (ws ++ Chr.BACKSLASH :: Chr.LF :: tl) (length adv) sym pk)
  = Some (true, lx')
  /\ token_text lx' = [Chr.BACKSLASH; Chr.LF]
  /\ trivia lx' = map fst (filter snd adv) ++ ws.
Proof.
  intros Hvalid Hrun Hfuel lx'.
  assert (Hws : forallb (skippable iswspace) ws = true).
  { apply forallb_forall; intros c Hc.
    apply cr_or_tab_skippable; [exact iswspace_standard|].
    now apply (proj1 (forallb_forall _ _) Hrun). }
  repeat split.
  - scan_behind ws (Chr.BACKSLASH :: Chr.LF :: tl);
      [| exact Hvalid | exact Hws | now apply backslash_stops
       | reflexivity | exact Hfuel].
    cbn [hd]; rewrite iswspace_BACKSLASH.
    rewrite expect_backslash_lf with (tl := tl) by reflexivity.
    unfold after_skip, lx', position, start_behind; cbn.
    destruct ws; cbn [length]; lexer_eq.
  - apply token_text_behind_run.
  - apply trivia_behind_run.
Qed.

(** C7: [scan] returns on every finite input.  A budget above the length
    of the leading run is enough, whatever follows, and the run is no
    longer than the input; the cursor ends at most three code points
    behind the run, and the lookahead is read at most twice per skipped
    code point and five times more. *)
Theorem scan_terminates payload valid_symbols lx :
  let run := whitespace_run iswspace (rest lx) in
  exists ok lx',
    (forall fuel,
        (length run < fuel)%nat ->
        tree_sitter_morpheus_external_scanner_scan iswspace fuel payload
          valid_symbols lx = Some (ok, lx'))
    /\ (length run <= length (rest lx))%nat
    /\ (position lx <= position lx' <= position lx + length run + 3)%nat
    /\ (peeks lx' <= peeks lx + 2 * length run + 5)%nat.
Proof.
  intros run.
  pose proof (whitespace_run_length iswspace (rest lx)) as Hlen.
  fold run in Hlen.
  destruct (valid_symbols LINE_CONTINUATION) eqn:Hvalid.
  2:{ exists false, lx; split; [|lia].
      intros fuel _; rewrite scan_unfold, Hvalid; reflexivity. }
  destruct (whitespace_run_split iswspace (rest lx) iswspace_NUL)
    as (tl & Hsplit & Hws & Hstop).
  fold run in Hsplit, Hws.
  destruct (expect_backslash_total
              (after_skip run tl (iswspace (hd Chr.NUL tl)) lx))
    as (ok & lx' & more & Hrun & Hadv & _ & _ & Hmore & Hpk & _).
  exists ok, lx'; split; [|split; [exact Hlen|]].
  - intros fuel Hfuel.
    scan_behind run tl;
      [exact Hrun | exact Hvalid | exact Hws | exact Hstop
       | exact Hsplit | exact Hfuel].
  - cbn [after_skip advanced peeks] in Hadv, Hpk.
    unfold position; rewrite Hadv, !length_app.
    rewrite length_skipped, length_significant.
    destruct (iswspace (hd Chr.NUL tl)); lia.
Qed.

(** C9: [scan] writes [result_symbol] on the success path only: whenever
    it returns failure the field holds what it held before the call.  And
    it does return once the budget exceeds the length of the input. *)
Theorem scan_failure_keeps_result_symbol fuel payload valid_symbols lx :
  (forall lx',
      tree_sitter_morpheus_external_scanner_scan iswspace fuel payload
        valid_symbols lx = Some (false, lx') ->
      result_symbol lx' = result_symbol lx)
  /\ ((length (rest lx) < fuel)%nat ->
      exists ok lx',
        tree_sitter_morpheus_external_scanner_scan iswspace fuel payload
          valid_symbols lx
        = Some (ok, lx')).
Proof.
  split.
  - intros lx'; rewrite scan_unfold.
    destruct (valid_symbols LINE_CONTINUATION);
      [|intros [= <-]; reflexivity].
    unfold bind.
    destruct (skip_whitespace iswspace fuel lx) as [[u lx1]|] eqn:Hskip;
      [|discriminate].
    destruct (expect_backslash_total lx1)
      as (ok & lx2 & more & Hrun & _ & _ & _ & _ & _ & Hkeep & _).
    rewrite Hrun; intros [= -> ->].
    rewrite (Hkeep eq_refl).
    exact (skip_whitespace_result_symbol iswspace fuel lx u lx1 Hskip).
  - intros Hfuel.
    destruct (valid_symbols LINE_CONTINUATION) eqn:Hvalid.
    2:{ exists false, lx; rewrite scan_unfold, Hvalid; reflexivity. }
    destruct (whitespace_run_split iswspace (rest lx) iswspace_NUL)
      as (tl & Hsplit & Hws & Hstop).
    pose proof (whitespace_run_length iswspace (rest lx)) as Hlen.
    destruct (expect_backslash_total
                (after_skip (whitespace_run iswspace (rest lx)) tl
                   (iswspace (hd Chr.NUL tl)) lx))
      as (ok & lx' & more & Hrun & _).
    exists ok, lx'.
    scan_behind (whitespace_run iswspace (rest lx)) tl;
      [exact Hrun | exact Hvalid | exact Hws | exact Hstop
       | exact Hsplit | lia].
Qed.

End Claims.

(** ** Saving and restoring *)

(** C6: [serialize] reports zero bytes and [deserialize] changes nothing,
    whatever they are called with; after any history of scan calls on a
    new scanner, saving and restoring at once gives back the very same
    session, on which every scan call answers as before. *)
Theorem serialize_deserialize_round_trip iswspace m history buffer :
  let s := session_after iswspace history (session_create m) in
  (forall payload buf mem,
      tree_sitter_morpheus_external_scanner_serialize payload buf mem
      = (0, mem))
  /\ (forall payload buf len mem,
        tree_sitter_morpheus_external_scanner_deserialize payload buf len mem
        = (tt, mem))
  /\ s = session_create m
  /\ fst (session_serialize buffer s) = 0
  /\ round_trip buffer s = s
  /\ (forall c,
        fst (session_scan iswspace c (round_trip buffer s))
        = fst (session_scan iswspace c s)).
Proof.
  intros s.
  assert (Hs : s = session_create m).
  { unfold s; generalize (session_create m).
    induction history as [|c history IH]; intros s0; [reflexivity|].
    cbn [session_after session_scan snd]; apply IH. }
  assert (Hrt : round_trip buffer s = s) by (rewrite Hs; reflexivity).
  split; [reflexivity|].
  split; [reflexivity|].
  split; [exact Hs|].
  split; [reflexivity|].
  split; [exact Hrt|].
  intros c; rewrite Hrt; reflexivity.
Qed.

(** ** The claims at work in the "C" locale *)

Lemma scan_accepts_line_continuation_witness :
  tree_sitter_morpheus_external_scanner_scan iswspace_C 1 NULL admissible
    (lexer_at [] [Chr.BACKSLASH; Chr.LF] 7)
  = Some (true,
          mkLexer [(Chr.BACKSLASH, false); (Chr.LF, false)] [] 0 0 4)
  /\ tree_sitter_morpheus_external_scanner_scan iswspace_C 1 NULL admissible
       (lexer_at [] [Chr.BACKSLASH; Chr.CR; Chr.LF] 7)
     = Some (true,
             mkLexer [(Chr.BACKSLASH, false); (Chr.CR, false);
                      (Chr.LF, false)] [] 0 0 4).
Proof.
  destruct (scan_accepts_line_continuation iswspace_C eq_refl
              1%nat NULL admissible [] 0%nat 7 0%nat []
              eq_refl (Nat.lt_0_succ 0))
    as (Hlf & _ & Hcrlf & _).
  split; [exact Hlf | exact Hcrlf].
Defined.

Lemma scan_inadmissible_untouched_witness :
  tree_sitter_morpheus_external_scanner_scan iswspace_C 0 NULL inadmissible
    (lexer_at [] [Chr.SPACE; Chr.BACKSLASH; Chr.LF] 7)
  = Some (false, lexer_at [] [Chr.SPACE; Chr.BACKSLASH; Chr.LF] 7).
Proof.
  apply (scan_inadmissible_untouched iswspace_C 0%nat NULL inadmissible).
  reflexivity.
Defined.

Lemma scan_skips_leading_whitespace_witness :
  (exists ok lx' more,
      tree_sitter_morpheus_external_scanner_scan iswspace_C 3 NULL admissible
        (mkLexer [] ([Chr.TAB; Chr.SPACE] ++ [Chr.LOWER_X]) 0 7 0)
      = Some (ok, lx')
      /\ advanced lx' = [] ++ skipped [Chr.TAB; Chr.SPACE] ++ significant more
      /\ [Chr.LOWER_X] = more ++ rest lx'
      /\ token_start lx' = 2%nat
      /\ token_text lx' = more
      /\ trivia lx' = [Chr.TAB; Chr.SPACE])
  /\ tree_sitter_morpheus_external_scanner_scan iswspace_C 4 NULL admissible
       (lexer_at [] [Chr.SPACE; Chr.SPACE; Chr.SPACE;
                     Chr.BACKSLASH; Chr.LF] 7)
     = Some (true,
             mkLexer [(Chr.SPACE, true); (Chr.SPACE, true); (Chr.SPACE, true);
                      (Chr.BACKSLASH, false); (Chr.LF, false)] [] 3 0 10).
Proof.
  split.
  - apply (proj1 (scan_skips_leading_whitespace iswspace_C eq_refl eq_refl
                    NULL admissible [] 7 0%nat [Chr.LOWER_X] eq_refl)
             3%nat [Chr.TAB; Chr.SPACE]);
      [reflexivity | reflexivity | cbn; lia].
  - apply (proj2 (scan_skips_leading_whitespace iswspace_C eq_refl eq_refl
                    NULL admissible [] 7 0%nat [] eq_refl) 4%nat).
    lia.
Defined.

Lemma scan_fails_behind_backslash_witness :
  tree_sitter_morpheus_external_scanner_scan iswspace_C 1 NULL admissible
    (lexer_at [] [Chr.BACKSLASH; Chr.LOWER_X] 7)
  = Some (false, mkLexer [(Chr.BACKSLASH, false)] [Chr.LOWER_X] 0 7 4)
  /\ tree_sitter_morpheus_external_scanner_scan iswspace_C 2 NULL admissible
       (lexer_at [] [Chr.SPACE; Chr.BACKSLASH; Chr.CR; Chr.LOWER_X] 7)
     = Some (false,
             mkLexer [(Chr.SPACE, true); (Chr.BACKSLASH, false);
                      (Chr.CR, false)] [Chr.LOWER_X] 1 7 6).
Proof.
  split.
  - apply (proj1 (scan_fails_behind_backslash iswspace_C eq_refl
                    1%nat NULL admissible [] 0%nat 7 0%nat []
                    [Chr.LOWER_X] eq_refl eq_refl (Nat.lt_0_succ 0)));
      reflexivity.
  - apply (proj2 (scan_fails_behind_backslash iswspace_C eq_refl
                    2%nat NULL admissible [] 0%nat 7 0%nat [Chr.SPACE]
                    [Chr.LOWER_X] eq_refl eq_refl (Nat.lt_succ_diag_r 1)));
      reflexivity.
Defined.

Lemma scan_stops_at_newline_witness :
  tree_sitter_morpheus_external_scanner_scan iswspace_C 1 NULL admissible
    (lexer_at [] [Chr.LF] 7)
  = Some (false, mkLexer [] [Chr.LF] 0 7 3).
Proof.
  apply (scan_stops_at_newline iswspace_C 1%nat NULL admissible
           [] 0%nat 7 0%nat []); [reflexivity | cbn; lia].
Defined.

Lemma scan_terminates_witness :
  exists ok lx',
    tree_sitter_morpheus_external_scanner_scan iswspace_C 3 NULL admissible
      (lexer_at [] [Chr.SPACE; Chr.TAB; Chr.BACKSLASH; Chr.CR] 7)
    = Some (ok, lx')
    /\ (position lx' <= 5)%nat
    /\ (peeks lx' <= 9)%nat.
Proof.
  destruct (scan_terminates iswspace_C eq_refl NULL admissible
              (lexer_at [] [Chr.SPACE; Chr.TAB; Chr.BACKSLASH; Chr.CR] 7))
    as (ok & lx' & Hreturns & _ & [_ Hpos] & Hpeeks).
  exists ok, lx'; split; [|split].
  - apply Hreturns; cbn; lia.
  - exact Hpos.
  - exact Hpeeks.
Defined.

Lemma scan_fails_at_end_of_input_witness :
  tree_sitter_morpheus_external_scanner_scan iswspace_C 1 NULL admissible
    (lexer_at [] [] 7)
  = Some (false, mkLexer [] [] 0 7 2).
Proof.
  apply (scan_fails_at_end_of_input iswspace_C eq_refl 1%nat NULL admissible
           [] 0%nat 7 0%nat); [reflexivity | cbn; lia].
Defined.

Lemma scan_failure_keeps_result_symbol_witness :
  result_symbol (mkLexer [(Chr.BACKSLASH, false)] [Chr.LOWER_X] 0 7 4) = 7
  /\ exists ok lx',
       tree_sitter_morpheus_external_scanner_scan iswspace_C 3 NULL
         admissible (lexer_at [] [Chr.BACKSLASH; Chr.LOWER_X] 7)
       = Some (ok, lx').
Proof.
  destruct (scan_failure_keeps_result_symbol iswspace_C eq_refl 3%nat NULL
              admissible (lexer_at [] [Chr.BACKSLASH; Chr.LOWER_X] 7))
    as [Hkeep Hreturns].
  split.
  - apply (Hkeep (mkLexer [(Chr.BACKSLASH, false)] [Chr.LOWER_X] 0 7 4)).
    reflexivity.
  - apply Hreturns; cbn; lia.
Defined.

Lemma scan_skips_leading_carriage_return_witness :
  tree_sitter_morpheus_external_scanner_scan iswspace_C 2 NULL admissible
    (lexer_at [] [Chr.CR; Chr.BACKSLASH; Chr.LF] 7)
  = Some (true,
          mkLexer [(Chr.CR, true); (Chr.BACKSLASH, false); (Chr.LF, false)]
                  [] 1 0 6)
  /\ token_text
       (mkLexer [(Chr.CR, true); (Chr.BACKSLASH, false); (Chr.LF, false)]
                [] 1 0 6)
     = [Chr.BACKSLASH; Chr.LF]
  /\ trivia
       (mkLexer [(Chr.CR, true); (Chr.BACKSLASH, false); (Chr.LF, false)]
                [] 1 0 6)
     = [Chr.CR].
Proof.
  apply (scan_skips_leading_carriage_return iswspace_C eq_refl eq_refl
           2%nat NULL admissible [] 7 0%nat [Chr.CR] []);
    [reflexivity | reflexivity | cbn; lia].
Defined.

(** ** More on the whitespace loop *)

Section LoopInversion.

Variable iswspace : Z -> bool.

Lemma whitespace_run_forallb cs :
  forallb (skippable iswspace) (whitespace_run iswspace cs) = true.
Proof.
  induction cs as [|c cs IH]; cbn; [reflexivity|].
  destruct (skippable iswspace c) eqn:Hc; cbn; [|reflexivity].
  now rewrite Hc, IH.
Qed.

Lemma whitespace_run_app_stop ws tl :
  forallb (skippable iswspace) ws = true ->
  skippable iswspace (hd Chr.NUL tl) = false ->
  whitespace_run iswspace (ws ++ tl) = ws.
Proof.
  intros Hws Hstop; induction ws as [|c ws IH]; cbn [app].
  - destruct tl as [|c tl]; cbn in Hstop |- *; [reflexivity|].
    now rewrite Hstop.
  - cbn in Hws; apply andb_prop in Hws as [Hc Hws].
    cbn; now rewrite Hc, IH.
Qed.

(** What follows the leading run is not skippable. *)
Lemma whitespace_run_stop cs c tl :
  cs = whitespace_run iswspace cs ++ c :: tl ->
  skippable iswspace c = false.
Proof.
  revert c tl; induction cs as [|x cs IH]; intros c tl; cbn.
  - discriminate.
  - destruct (skippable iswspace x) eqn:Hx; cbn.
    + intros [= H]; exact (IH c tl H).
    + now intros [= -> _].
Qed.

(** A run shorter than the input is followed by a code point at which the
    loop stops. *)
Lemma whitespace_run_split_cons cs :
  (length (whitespace_run iswspace cs) < length cs)%nat ->
  exists c tl,
    cs = whitespace_run iswspace cs ++ c :: tl
    /\ skippable iswspace c = false.
Proof.
  induction cs as [|x cs IH]; cbn; [lia|].
  destruct (skippable iswspace x) eqn:Hx; cbn.
  - intros H; destruct IH as (c & tl & Heq & Hc); [lia|].
    exists c, tl; split; [now rewrite <- Heq | exact Hc].
  - intros _; exists x, cs; split; [reflexivity | exact Hx].
Qed.

(** At end of input a sentinel taken for white space keeps the loop
    turning: [advance] has nothing to move past. *)
Lemma skip_whitespace_spin fuel lx :
  rest lx = [] ->
  skippable iswspace Chr.NUL = true ->
  skip_whitespace iswspace (S fuel) lx
  = skip_whitespace iswspace fuel
      (mkLexer (advanced lx) [] (token_start lx) (result_symbol lx)
               (S (S (peeks lx)))).
Proof.
  intros Hrest Hc; apply skippable_true in Hc as [Hw Hn].
  destruct lx as [a r t s p]; cbn [rest] in Hrest; subst r.
  cbn [skip_whitespace]; unfold bind at 1, lookahead at 1, current.
  cbn [hd rest advanced token_start result_symbol peeks]; rewrite Hw.
  unfold bind at 1, lookahead at 1, current.
  cbn [hd rest advanced token_start result_symbol peeks]; rewrite Hn.
  reflexivity.
Qed.

(** Whatever the loop returns, it got there by skipping a run of skippable
    code points and stopping in front of one that is not. *)
Lemma skip_whitespace_inv fuel :
  forall lx u lx1,
    skip_whitespace iswspace fuel lx = Some (u, lx1) ->
    exists ws,
      forallb (skippable iswspace) ws = true
      /\ skippable iswspace (current lx1) = false
      /\ advanced lx1 = advanced lx ++ skipped ws
      /\ rest lx = ws ++ rest lx1
      /\ token_start lx1 = start_behind ws (position lx) (token_start lx)
      /\ result_symbol lx1 = result_symbol lx.
Proof.
  induction fuel as [|fuel IH]; intros lx u lx1; [discriminate|].
  destruct (skippable iswspace (current lx)) eqn:Hcur.
  - destruct (rest lx) as [|c cs] eqn:Hrest.
    + unfold current in Hcur; rewrite Hrest in Hcur; cbn [hd] in Hcur.
      rewrite (skip_whitespace_spin fuel lx Hrest Hcur); intros H.
      destruct (IH _ _ _ H) as (ws & Hws & Hstop & Hadv & Hr & Hst & Hsym).
      exists ws; cbn in Hadv, Hr, Hst, Hsym; repeat split; assumption.
    + unfold current in Hcur; rewrite Hrest in Hcur; cbn [hd] in Hcur.
      rewrite (skip_whitespace_step iswspace fuel lx c cs Hcur Hrest).
      intros H.
      destruct (IH _ _ _ H) as (ws & Hws & Hstop & Hadv & Hr & Hst & Hsym).
      cbn [advanced rest token_start result_symbol position] in *.
      exists (c :: ws); cbn [forallb]; rewrite Hcur, Hws.
      repeat split; try assumption.
      * rewrite Hadv, <- app_assoc; reflexivity.
      * now rewrite Hr.
      * rewrite Hst; unfold start_behind, position; cbn [advanced].
        destruct ws; rewrite ?length_app; cbn [length]; lia.
  - rewrite (skip_whitespace_stop iswspace fuel lx Hcur).
    intros [= _ <-]; exists []; unfold after_skip, skipped.
    cbn; rewrite app_nil_r; repeat split; exact Hcur.
Qed.

End LoopInversion.

(** ** More on the second half *)

Section SecondHalf.

(** The five ways through lines 29-41. *)
Lemma expect_backslash_cases lx :
  ((current lx =? Chr.BACKSLASH) = false
   /\ expect_backslash lx
      = Some (false, mkLexer (advanced lx) (rest lx) (token_start lx)
                             (result_symbol lx) (S (peeks lx))))
  \/ (exists tl,
        rest lx = Chr.BACKSLASH :: Chr.LF :: tl
        /\ expect_backslash lx
           = Some (true,
                   mkLexer (advanced lx
                            ++ significant [Chr.BACKSLASH; Chr.LF]) tl
                           (token_start lx)
                           (TokenType_value LINE_CONTINUATION)
                           (peeks lx + 3)))
  \/ (exists tl,
        rest lx = Chr.BACKSLASH :: Chr.CR :: Chr.LF :: tl
        /\ expect_backslash lx
           = Some (true,
                   mkLexer (advanced lx
                            ++ significant [Chr.BACKSLASH; Chr.CR; Chr.LF])
                           tl (token_start lx)
                           (TokenType_value LINE_CONTINUATION)
                           (peeks lx + 3)))
  \/ (exists tl,
        rest lx = Chr.BACKSLASH :: Chr.CR :: tl
        /\ (hd Chr.NUL tl =? Chr.LF) = false
        /\ expect_backslash lx
           = Some (false,
                   mkLexer (advanced lx
                            ++ significant [Chr.BACKSLASH; Chr.CR]) tl
                           (token_start lx) (result_symbol lx)
                           (peeks lx + 3)))
  \/ (exists tl,
        rest lx = Chr.BACKSLASH :: tl
        /\ (hd Chr.NUL tl =? Chr.CR) = false
        /\ (hd Chr.NUL tl =? Chr.LF) = false
        /\ expect_backslash lx
           = Some (false,
                   mkLexer (advanced lx ++ significant [Chr.BACKSLASH]) tl
                           (token_start lx) (result_symbol lx)
                           (peeks lx + 3))).
Proof.
  destruct (current lx =? Chr.BACKSLASH) eqn:Hb.
  2:{ left; split; [reflexivity | now apply expect_backslash_other]. }
  right.
  apply hd_eqb_cons in Hb as [tl Hrest]; [|discriminate].
  destruct (hd Chr.NUL tl =? Chr.CR) eqn:Hcr.
  - apply hd_eqb_cons in Hcr as [tl' ->]; [|discriminate].
    destruct (hd Chr.NUL tl' =? Chr.LF) eqn:Hlf.
    + apply hd_eqb_cons in Hlf as [tl'' ->]; [|discriminate].
      right; left; exists tl''; split; [exact Hrest|].
      now apply expect_backslash_cr_lf.
    + right; right; left; exists tl'; repeat split; try assumption.
      now apply expect_backslash_cr.
  - destruct (hd Chr.NUL tl =? Chr.LF) eqn:Hlf.
    + apply hd_eqb_cons in Hlf as [tl' ->]; [|discriminate].
      left; exists tl'; split; [exact Hrest|].
      now apply expect_backslash_lf.
    + right; right; right; exists tl; repeat split; try assumption.
      now apply expect_backslash_alone.
Qed.

(** A success of the second half, read backwards. *)
Lemma expect_backslash_true_inv lx lx' :
  expect_backslash lx = Some (true, lx') ->
  exists more tl,
    (more = [Chr.BACKSLASH; Chr.LF]
     \/ more = [Chr.BACKSLASH; Chr.CR; Chr.LF])
    /\ rest lx = more ++ tl
    /\ lx' = mkLexer (advanced lx ++ significant more) tl (token_start lx)
               (TokenType_value LINE_CONTINUATION) (peeks lx + 3).
Proof.
  destruct (expect_backslash_cases lx)
    as [[_ H] | [(tl & Hr & H) | [(tl & Hr & H)
        | [(tl & _ & _ & H) | (tl & _ & _ & _ & H)]]]];
    rewrite H; intros [= <-].
  - exists [Chr.BACKSLASH; Chr.LF], tl; auto.
  - exists [Chr.BACKSLASH; Chr.CR; Chr.LF], tl; auto.
Qed.

(** Every way through consumes significant code points only, all of them
    among backslash, carriage return and newline, and at most three. *)
Lemma expect_backslash_consumes lx :
  exists ok lx' more,
    expect_backslash lx = Some (ok, lx')
    /\ advanced lx' = advanced lx ++ significant more
    /\ rest lx = more ++ rest lx'
    /\ token_start lx' = token_start lx
    /\ forallb continuation_char more = true
    /\ (length more <= 3)%nat.
Proof.
  destruct (expect_backslash_cases lx)
    as [[_ H] | [(tl & Hr & H) | [(tl & Hr & H)
        | [(tl & Hr & _ & H) | (tl & Hr & _ & _ & H)]]]];
    rewrite H.
  - exists false, (mkLexer (advanced lx) (rest lx) (token_start lx)
                     (result_symbol lx) (S (peeks lx))), [].
    cbn; rewrite app_nil_r; repeat split; lia.
  - eexists true, _, [Chr.BACKSLASH; Chr.LF].
    split; [reflexivity|]; cbn; repeat split; try lia; exact Hr.
  - eexists true, _, [Chr.BACKSLASH; Chr.CR; Chr.LF].
    split; [reflexivity|]; cbn; repeat split; try lia; exact Hr.
  - eexists false, _, [Chr.BACKSLASH; Chr.CR].
    split; [reflexivity|]; cbn; repeat split; try lia; exact Hr.
  - eexists false, _, [Chr.BACKSLASH].
    split; [reflexivity|]; cbn; repeat split; try lia; exact Hr.
Qed.

End SecondHalf.

(** ** Further properties of [scan] *)

Section ScanProperties.

Variable iswspace : Z -> bool.

Hypothesis iswspace_NUL : iswspace Chr.NUL = false.

(** With enough budget [scan] returns. *)
Lemma scan_returns fuel payload valid_symbols lx :
  (length (rest lx) < fuel)%nat ->
  exists ok lx',
    tree_sitter_morpheus_external_scanner_scan iswspace fuel payload
      valid_symbols lx
    = Some (ok, lx').
Proof.
  intros Hfuel.
  destruct (valid_symbols LINE_CONTINUATION) eqn:Hvalid.
  2:{ exists false, lx; rewrite scan_unfold, Hvalid; reflexivity. }
  destruct (whitespace_run_split iswspace (rest lx) iswspace_NUL)
    as (tl & Hsplit & Hws & Hstop).
  pose proof (whitespace_run_length iswspace (rest lx)) as Hlen.
  destruct (expect_backslash_total
              (after_skip (whitespace_run iswspace (rest lx)) tl
                 (iswspace (hd Chr.NUL tl)) lx))
    as (ok & lx' & more & Hrun & _).
  exists ok, lx'.
  scan_behind (whitespace_run iswspace (rest lx)) tl;
    [exact Hrun | exact Hvalid | exact Hws | exact Hstop
     | exact Hsplit | lia].
Qed.

(** A run, then something that is neither skippable nor a backslash. *)
Lemma scan_no_backslash fuel payload valid_symbols lx ws tl :
  valid_symbols LINE_CONTINUATION = true ->
  forallb (skippable iswspace) ws = true ->
  skippable iswspace (hd Chr.NUL tl) = false ->
  (hd Chr.NUL tl =? Chr.BACKSLASH) = false ->
  rest lx = ws ++ tl ->
  (length ws < fuel)%nat ->
  tree_sitter_morpheus_external_scanner_scan iswspace fuel payload
    valid_symbols lx
  = Some (false,
          mkLexer (advanced lx ++ skipped ws) tl
                  (start_behind ws (position lx) (token_start lx))
                  (result_symbol lx)
                  (peeks lx + 2 * length ws
                   + if iswspace (hd Chr.NUL tl) then 3 else 2)).
Proof.
  intros Hvalid Hws Hstop Hbs Hrest Hfuel.
  scan_behind ws tl;
    [| exact Hvalid | exact Hws | exact Hstop | exact Hrest | exact Hfuel].
  rewrite expect_backslash_other by exact Hbs.
  unfold after_skip; cbn [advanced rest token_start result_symbol peeks].
  destruct (iswspace (hd Chr.NUL tl)); lexer_eq.
Qed.

(** One turn of the loop, written out. *)
Lemma skip_whitespace_unfold (w : Z -> bool) fuel a r t s p :
  skip_whitespace w (S fuel) (mkLexer a r t s p)
  = if w (hd Chr.NUL r) then
      if hd Chr.NUL r =? Chr.LF then Some (tt, mkLexer a r t s (S (S p)))
      else
        match r with
        | [] => skip_whitespace w fuel (mkLexer a [] t s (S (S p)))
        | c :: cs =>
            skip_whitespace w fuel
              (mkLexer (a ++ [(c, true)]) cs (length (a ++ [(c, true)])) s
                       (S (S p)))
        end
    else Some (tt, mkLexer a r t s (S p)).
Proof.
  cbn [skip_whitespace]; unfold bind, lookahead, advance, current, ret.
  cbn [rest advanced token_start result_symbol peeks].
  destruct (w (hd Chr.NUL r)); [|reflexivity].
  cbn [rest advanced token_start result_symbol peeks].
  destruct (hd Chr.NUL r =? Chr.LF); [reflexivity|].
  destruct r; reflexivity.
Qed.

(** The white-space test is consulted on the code points of the input and
    on the sentinel only. *)
Lemma skip_whitespace_agree (other : Z -> bool) fuel :
  forall lx,
    (forall c, In c (rest lx) -> iswspace c = other c) ->
    iswspace Chr.NUL = other Chr.NUL ->
    skip_whitespace iswspace fuel lx = skip_whitespace other fuel lx.
Proof.
  induction fuel as [|fuel IH]; intros lx Hin Hnul; [reflexivity|].
  destruct lx as [a r t s p]; cbn [rest] in Hin.
  rewrite !skip_whitespace_unfold.
  assert (Hcur : iswspace (hd Chr.NUL r) = other (hd Chr.NUL r)).
  { destruct r as [|c r]; cbn [hd]; [exact Hnul | apply Hin; now left]. }
  rewrite Hcur; destruct (other (hd Chr.NUL r)); [|reflexivity].
  destruct (hd Chr.NUL r =? Chr.LF); [reflexivity|].
  destruct r as [|c r]; apply IH; cbn [rest]; auto.
  intros c' Hc'; apply Hin; now right.
Qed.

(** X1: [scan] reports a token only when the input behind its leading
    run starts with backslash, newline or backslash, carriage return,
    newline, and the category is admissible; and with the category
    admissible and budget above the run it does report one on every such
    input. *)
Theorem scan_succeeds_iff fuel payload valid_symbols lx :
  let run := whitespace_run iswspace (rest lx) in
  let continues :=
    exists tl,
      rest lx = run ++ Chr.BACKSLASH :: Chr.LF :: tl
      \/ rest lx = run ++ Chr.BACKSLASH :: Chr.CR :: Chr.LF :: tl in
  ((exists lx',
       tree_sitter_morpheus_external_scanner_scan iswspace fuel payload
         valid_symbols lx
       = Some (true, lx')) ->
   valid_symbols LINE_CONTINUATION = true /\ continues)
  /\ (valid_symbols LINE_CONTINUATION = true ->
      (length run < fuel)%nat ->
      continues ->
      exists lx',
        tree_sitter_morpheus_external_scanner_scan iswspace fuel payload
          valid_symbols lx
        = Some (true, lx')).
Proof.
  intros run continues; split.
  - intros [lx' H]; rewrite scan_unfold in H.
    destruct (valid_symbols LINE_CONTINUATION); [|discriminate].
    split; [reflexivity|].
    unfold bind in H.
    destruct (skip_whitespace iswspace fuel lx) as [[u lx1]|] eqn:Hskip;
      [|discriminate].
    apply skip_whitespace_inv in Hskip
      as (ws & Hws & Hstop & _ & Hrest & _).
    apply expect_backslash_true_inv in H as (more & tl & Hmore & Hr1 & _).
    assert (Hrun : run = ws).
    { unfold run; rewrite Hrest.
      now apply whitespace_run_app_stop. }
    exists tl; rewrite Hrun, Hrest, Hr1.
    destruct Hmore as [-> | ->]; [left | right]; reflexivity.
  - intros Hvalid Hfuel [tl Hrest].
    pose proof (whitespace_run_forallb iswspace (rest lx)) as Hws.
    fold run in Hws.
    destruct Hrest as [Hrest | Hrest];
      pose proof (whitespace_run_stop iswspace _ _ _ Hrest) as Hbs;
      eexists.
    + scan_behind run (Chr.BACKSLASH :: Chr.LF :: tl);
        [| exact Hvalid | exact Hws | exact Hbs | exact Hrest | exact Hfuel].
      rewrite expect_backslash_lf with (tl := tl) by reflexivity.
      reflexivity.
    + scan_behind run (Chr.BACKSLASH :: Chr.CR :: Chr.LF :: tl);
        [| exact Hvalid | exact Hws | exact Hbs | exact Hrest | exact Hfuel].
      rewrite expect_backslash_cr_lf with (tl := tl) by reflexivity.
      reflexivity.
Qed.

(** X2: when [scan] reports a token from a lexer at a token start, the
    token is the line continuation and nothing else: [result_symbol] is
    the category, the token text is backslash, newline or backslash,
    carriage return, newline, the leading run and only it became trivia,
    and run, token text and what is left make up the input. *)
Theorem scan_success_token fuel payload valid_symbols lx lx' :
  tree_sitter_morpheus_external_scanner_scan iswspace fuel payload
    valid_symbols lx
  = Some (true, lx') ->
  token_start lx = position lx ->
  let run := whitespace_run iswspace (rest lx) in
  result_symbol lx' = TokenType_value LINE_CONTINUATION
  /\ (token_text lx' = [Chr.BACKSLASH; Chr.LF]
      \/ token_text lx' = [Chr.BACKSLASH; Chr.CR; Chr.LF])
  /\ trivia lx' = trivia lx ++ run
  /\ token_start lx' = (position lx + length run)%nat
  /\ position lx' = (token_start lx' + length (token_text lx'))%nat
  /\ rest lx = run ++ token_text lx' ++ rest lx'.
Proof.
  intros H Hstart run; rewrite scan_unfold in H.
  destruct (valid_symbols LINE_CONTINUATION); [|discriminate].
  unfold bind in H.
  destruct (skip_whitespace iswspace fuel lx) as [[u lx1]|] eqn:Hskip;
    [|discriminate].
  apply skip_whitespace_inv in Hskip
    as (ws & Hws & Hstop & Hadv & Hrest & Hst & _).
  apply expect_backslash_true_inv in H as (more & tl & Hmore & Hr1 & ->).
  assert (Hrun : run = ws).
  { unfold run; rewrite Hrest; now apply whitespace_run_app_stop. }
  assert (Hst' : token_start lx1 = (length (advanced lx) + length ws)%nat).
  { rewrite Hst, Hstart; unfold start_behind, position.
    destruct ws; cbn [length]; lia. }
  rewrite Hadv, Hst', <- app_assoc, Hrun.
  rewrite token_text_behind_run, trivia_behind_run.
  cbn [result_symbol token_start rest]; unfold position at 2.
  cbn [advanced].
  rewrite !length_app, length_skipped, length_significant.
  repeat split.
  - destruct Hmore as [-> | ->]; auto.
  - lia.
  - now rewrite Hrest, Hr1.
Qed.

(** X3: with the category admissible, when what follows the leading run is
    not a backslash (another character, a newline, the end of the input),
    [scan] fails having advanced past the run and nothing else, every
    advance a skipping one: the white space is gone as trivia although no
    token was found. *)
Theorem scan_fails_without_backslash
    fuel payload valid_symbols adv start sym pk ws tl :
  valid_symbols LINE_CONTINUATION = true ->
  forallb (skippable iswspace) ws = true ->
  skippable iswspace (hd Chr.NUL tl) = false ->
  (hd Chr.NUL tl =? Chr.BACKSLASH) = false ->
  (length ws < fuel)%nat ->
  tree_sitter_morpheus_external_scanner_scan iswspace fuel payload
    valid_symbols (mkLexer adv (ws ++ tl) start sym pk)
  = Some (false,
          mkLexer (adv ++ skipped ws) tl
                  (start_behind ws (length adv) start) sym
                  (pk + 2 * length ws
                   + if iswspace (hd Chr.NUL tl) then 3 else 2)).
Proof.
  intros Hvalid Hws Hstop Hbs Hfuel.
  exact (scan_no_backslash fuel payload valid_symbols
           (mkLexer adv (ws ++ tl) start sym pk) ws tl
           Hvalid Hws Hstop Hbs eq_refl Hfuel).
Qed.

(** X4: whatever [scan] returns, it has only moved the cursor forward:
    the log grew by a run of skipped code points followed by at most three
    significant ones among backslash, carriage return and newline; these,
    in this order, and what is left are the input it was given; and a
    token start that was not ahead of the cursor still is not.  And it
    does return once the budget exceeds the length of the input. *)
Theorem scan_moves_forward fuel payload valid_symbols lx :
  (forall ok lx',
      tree_sitter_morpheus_external_scanner_scan iswspace fuel payload
        valid_symbols lx
      = Some (ok, lx') ->
      exists ws more,
        advanced lx' = advanced lx ++ skipped ws ++ significant more
        /\ rest lx = ws ++ more ++ rest lx'
        /\ forallb (skippable iswspace) ws = true
        /\ forallb continuation_char more = true
        /\ (length more <= 3)%nat
        /\ ((token_start lx <= position lx)%nat ->
            (token_start lx' <= position lx')%nat))
  /\ ((length (rest lx) < fuel)%nat ->
      exists ok lx',
        tree_sitter_morpheus_external_scanner_scan iswspace fuel payload
          valid_symbols lx
        = Some (ok, lx')).
Proof.
  split; [|apply scan_returns].
  intros ok lx'; rewrite scan_unfold.
  destruct (valid_symbols LINE_CONTINUATION).
  2:{ intros [= <- <-]; exists [], []; cbn; rewrite app_nil_r.
      repeat split; auto; lia. }
  unfold bind.
  destruct (skip_whitespace iswspace fuel lx) as [[u lx1]|] eqn:Hskip;
    [|discriminate].
  apply skip_whitespace_inv in Hskip
    as (ws & Hws & _ & Hadv & Hrest & Hst & _).
  destruct (expect_backslash_consumes lx1)
    as (ok2 & lx2 & more & Hrun & Hadv2 & Hrest2 & Hst2 & Hchars & Hlen).
  rewrite Hrun; intros [= <- <-].
  exists ws, more; repeat split; try assumption.
  - now rewrite Hadv2, Hadv, <- app_assoc.
  - now rewrite Hrest, Hrest2.
  - intros Hspan; rewrite Hst2, Hst; unfold position in *.
    rewrite Hadv2, Hadv, !length_app, length_skipped.
    unfold start_behind; destruct ws; cbn [length]; lia.
Qed.

(** X5: two white-space tests that agree on the code points of the input
    and on the end-of-input sentinel make [scan] behave alike, result and
    lexer: nothing else of the locale matters. *)
Theorem scan_locale_agreement
    (other : Z -> bool) fuel payload valid_symbols lx :
  (forall c, In c (rest lx) -> iswspace c = other c) ->
  iswspace Chr.NUL = other Chr.NUL ->
  tree_sitter_morpheus_external_scanner_scan iswspace fuel payload
    valid_symbols lx
  = tree_sitter_morpheus_external_scanner_scan other fuel payload
      valid_symbols lx.
Proof.
  intros Hin Hnul; rewrite !scan_unfold.
  destruct (valid_symbols LINE_CONTINUATION); [|reflexivity].
  unfold bind; now rewrite (skip_whitespace_agree other fuel lx Hin Hnul).
Qed.

(** X6: [scan] never looks further than three code points behind the
    leading run: two inputs that share a prefix reaching that far get the
    same answer, the same log and the same counters, and differ after the
    call exactly where they differed before. *)
Theorem scan_lookahead_bounded
    fuel payload valid_symbols adv start sym pk prefix rest1 rest2 :
  (length (whitespace_run iswspace prefix) + 3 <= length prefix)%nat ->
  (length (whitespace_run iswspace prefix) < fuel)%nat ->
  exists ok adv' left start' sym' pk',
    tree_sitter_morpheus_external_scanner_scan iswspace fuel payload
      valid_symbols (mkLexer adv (prefix ++ rest1) start sym pk)
    = Some (ok, mkLexer adv' (left ++ rest1) start' sym' pk')
    /\ tree_sitter_morpheus_external_scanner_scan iswspace fuel payload
         valid_symbols (mkLexer adv (prefix ++ rest2) start sym pk)
       = Some (ok, mkLexer adv' (left ++ rest2) start' sym' pk').
Proof.
  intros Hlen Hfuel.
  destruct (valid_symbols LINE_CONTINUATION) eqn:Hvalid.
  2:{ exists false, adv, prefix, start, sym, pk.
      rewrite !scan_unfold, Hvalid; split; reflexivity. }
  destruct (whitespace_run_split_cons iswspace prefix)
    as (c & tl & Hsplit & Hc); [lia|].
  pose proof (whitespace_run_forallb iswspace prefix) as Hws.
  set (run := whitespace_run iswspace prefix) in *.
  assert (Htl : (2 <= length tl)%nat).
  { apply (f_equal (@length Z)) in Hsplit.
    rewrite length_app in Hsplit; cbn [length] in Hsplit; lia. }
  destruct tl as [|d [|e tl]]; cbn [length] in Htl; try lia.
  assert (Hbehind : forall s,
             tree_sitter_morpheus_external_scanner_scan iswspace fuel
               payload valid_symbols
               (mkLexer adv (prefix ++ s) start sym pk)
             = expect_backslash
                 (after_skip run (c :: d :: e :: tl ++ s) (iswspace c)
                    (mkLexer adv (prefix ++ s) start sym pk))).
  { intros s.
    scan_behind run (c :: d :: e :: tl ++ s);
      [reflexivity | exact Hvalid | exact Hws | exact Hc
       | cbn [rest]; rewrite Hsplit at 1; rewrite <- app_assoc; reflexivity
       | exact Hfuel]. }
  rewrite !Hbehind; unfold after_skip, position.
  cbn [advanced rest token_start result_symbol peeks].
  destruct (c =? Chr.BACKSLASH) eqn:Hb.
  2:{ do 6 eexists; split;
        (rewrite expect_backslash_other by exact Hb);
        cbn [advanced rest token_start result_symbol peeks];
        [change (c :: d :: e :: tl ++ rest1)
           with ((c :: d :: e :: tl) ++ rest1)
        |change (c :: d :: e :: tl ++ rest2)
           with ((c :: d :: e :: tl) ++ rest2)];
        reflexivity. }
  apply Z.eqb_eq in Hb; subst c.
  destruct (d =? Chr.CR) eqn:Hcr.
  - apply Z.eqb_eq in Hcr; subst d.
    destruct (e =? Chr.LF) eqn:Hlf.
    + apply Z.eqb_eq in Hlf; subst e.
      do 6 eexists; split;
        (rewrite expect_backslash_cr_lf with (tl := tl ++ _)
           by reflexivity);
        cbn [advanced rest token_start result_symbol peeks];
        reflexivity.
    + do 6 eexists; split;
        (rewrite expect_backslash_cr with (tl := e :: tl ++ _)
           by first [reflexivity | exact Hlf]);
        cbn [advanced rest token_start result_symbol peeks];
        [change (e :: tl ++ rest1) with ((e :: tl) ++ rest1)
        |change (e :: tl ++ rest2) with ((e :: tl) ++ rest2)];
        reflexivity.
  - destruct (d =? Chr.LF) eqn:Hlf.
    + apply Z.eqb_eq in Hlf; subst d.
      do 6 eexists; split;
        (rewrite expect_backslash_lf with (tl := e :: tl ++ _)
           by reflexivity);
        cbn [advanced rest token_start result_symbol peeks];
        [change (e :: tl ++ rest1) with ((e :: tl) ++ rest1)
        |change (e :: tl ++ rest2) with ((e :: tl) ++ rest2)];
        reflexivity.
    + do 6 eexists; split;
        (rewrite expect_backslash_alone with (tl := d :: e :: tl ++ _)
           by first [reflexivity | exact Hcr | exact Hlf]);
        cbn [advanced rest token_start result_symbol peeks];
        [change (d :: e :: tl ++ rest1) with ((d :: e :: tl) ++ rest1)
        |change (d :: e :: tl ++ rest2) with ((d :: e :: tl) ++ rest2)];
        reflexivity.
Qed.


End ScanProperties.

(** ** From create to destroy *)


(** ** The further properties at work in the "C" locale *)

Lemma scan_succeeds_iff_witness :
  (admissible LINE_CONTINUATION = true
   /\ exists tl,
        [Chr.SPACE; Chr.BACKSLASH; Chr.LF; Chr.LOWER_X]
        = [Chr.SPACE] ++ Chr.BACKSLASH :: Chr.LF :: tl
        \/ [Chr.SPACE; Chr.BACKSLASH; Chr.LF; Chr.LOWER_X]
           = [Chr.SPACE] ++ Chr.BACKSLASH :: Chr.CR :: Chr.LF :: tl)
  /\ exists lx',
       tree_sitter_morpheus_external_scanner_scan iswspace_C 2 NULL
         admissible
         (lexer_at [] [Chr.SPACE; Chr.BACKSLASH; Chr.LF; Chr.LOWER_X] 7)
       = Some (true, lx').
Proof.
  pose proof (scan_succeeds_iff iswspace_C 2%nat NULL admissible
                (lexer_at [] [Chr.SPACE; Chr.BACKSLASH; Chr.LF;
                              Chr.LOWER_X] 7)) as H.
  cbv zeta in H; destruct H as [Honly Hif]; split.
  - apply Honly.
    exists (mkLexer [(Chr.SPACE, true); (Chr.BACKSLASH, false);
                     (Chr.LF, false)] [Chr.LOWER_X] 1 0 6).
    reflexivity.
  - apply Hif; [reflexivity | cbn; lia |].
    exists [Chr.LOWER_X]; left; reflexivity.
Defined.

Lemma scan_success_token_witness :
  let lx := lexer_at [] [Chr.SPACE; Chr.BACKSLASH; Chr.CR; Chr.LF;
                         Chr.LOWER_X] 7 in
  let lx' := mkLexer [(Chr.SPACE, true); (Chr.BACKSLASH, false);
                      (Chr.CR, false); (Chr.LF, false)]
               [Chr.LOWER_X] 1 0 6 in
  result_symbol lx' = TokenType_value LINE_CONTINUATION
  /\ (token_text lx' = [Chr.BACKSLASH; Chr.LF]
      \/ token_text lx' = [Chr.BACKSLASH; Chr.CR; Chr.LF])
  /\ trivia lx' = trivia lx ++ [Chr.SPACE]
  /\ token_start lx' = (position lx + 1)%nat
  /\ position lx' = (token_start lx' + length (token_text lx'))%nat
  /\ rest lx = [Chr.SPACE] ++ token_text lx' ++ rest lx'.
Proof.
  intros lx lx'.
  exact (scan_success_token iswspace_C 2%nat NULL admissible lx lx'
           eq_refl eq_refl).
Defined.

Lemma scan_fails_without_backslash_witness :
  tree_sitter_morpheus_external_scanner_scan iswspace_C 3 NULL admissible
    (lexer_at [] [Chr.SPACE; Chr.SPACE; Chr.LOWER_X] 7)
  = Some (false,
          mkLexer [(Chr.SPACE, true); (Chr.SPACE, true)] [Chr.LOWER_X]
                  2 7 6).
Proof.
  apply (scan_fails_without_backslash iswspace_C 3%nat NULL admissible
           [] 0%nat 7 0%nat [Chr.SPACE; Chr.SPACE] [Chr.LOWER_X]);
    first [reflexivity | cbn; lia].
Defined.

Lemma scan_moves_forward_witness :
  let lx := lexer_at [] [Chr.SPACE; Chr.BACKSLASH; Chr.LOWER_X] 7 in
  let lx' := mkLexer [(Chr.SPACE, true); (Chr.BACKSLASH, false)]
               [Chr.LOWER_X] 1 7 6 in
  (exists ws more,
      advanced lx' = advanced lx ++ skipped ws ++ significant more
      /\ rest lx = ws ++ more ++ rest lx'
      /\ forallb (skippable iswspace_C) ws = true
      /\ forallb continuation_char more = true
      /\ (length more <= 3)%nat
      /\ ((token_start lx <= position lx)%nat ->
          (token_start lx' <= position lx')%nat))
  /\ exists ok lx'',
       tree_sitter_morpheus_external_scanner_scan iswspace_C 4 NULL
         admissible lx
       = Some (ok, lx'').
Proof.
  intros lx lx'.
  destruct (scan_moves_forward iswspace_C eq_refl 4%nat NULL admissible lx)
    as [Hforward Hreturns].
  split.
  - apply (Hforward false lx'); reflexivity.
  - apply Hreturns; cbn; lia.
Defined.

Lemma scan_locale_agreement_witness :
  tree_sitter_morpheus_external_scanner_scan iswspace_C 2 NULL admissible
    (lexer_at [] [Chr.SPACE; Chr.BACKSLASH; Chr.LF] 7)
  = tree_sitter_morpheus_external_scanner_scan
      (fun c => iswspace_C c || (c =? 160)) 2 NULL admissible
      (lexer_at [] [Chr.SPACE; Chr.BACKSLASH; Chr.LF] 7).
Proof.
  apply (scan_locale_agreement iswspace_C
           (fun c => iswspace_C c || (c =? 160)) 2%nat NULL admissible).
  - intros c Hc; cbn in Hc.
    destruct Hc as [<- | [<- | [<- | []]]]; reflexivity.
  - reflexivity.
Defined.

Lemma scan_lookahead_bounded_witness :
  exists ok adv' left start' sym' pk',
    tree_sitter_morpheus_external_scanner_scan iswspace_C 2 NULL admissible
      (mkLexer [] ([Chr.SPACE; Chr.BACKSLASH; Chr.LOWER_X; Chr.LOWER_X]
                   ++ [Chr.LF]) 0 7 0)
    = Some (ok, mkLexer adv' (left ++ [Chr.LF]) start' sym' pk')
    /\ tree_sitter_morpheus_external_scanner_scan iswspace_C 2 NULL
         admissible
         (mkLexer [] ([Chr.SPACE; Chr.BACKSLASH; Chr.LOWER_X; Chr.LOWER_X]
                      ++ []) 0 7 0)
       = Some (ok, mkLexer adv' (left ++ []) start' sym' pk').
Proof.
  apply (scan_lookahead_bounded iswspace_C 2%nat NULL admissible
           [] 0%nat 7 0%nat
           [Chr.SPACE; Chr.BACKSLASH; Chr.LOWER_X; Chr.LOWER_X]
           [Chr.LF] []);
    cbn; lia.
Defined.

